(** * The event-sourced order aggregate of package [order] (order/order.go)

    A shallow embedding of the aggregate, its event store, its repository
    and its command handler, followed by the properties of the
    specification.  Go pointer receivers are modelled by explicit state
    passing: a method that mutates its receiver returns the new receiver. *)

From Stdlib Require Import String List ZArith Bool Arith Lia.
Import ListNotations.
Open Scope string_scope.
Open Scope list_scope.

(** ** Errors

    The three package-level sentinels created with [errors.New]; a [nil]
    error is [None]. *)
Inductive error : Type :=
| errAlreadyPlaced
| errEmptyOrderLine
| errOrderNotFound.

(** ** Status

    [type Status int] with [StatusPlaced Status = iota] and
    [StatusActivated] the next constant.  The type is an integer type, so a
    status can hold any integer, and the zero value of the type is the
    value of [StatusPlaced]. *)
Definition Status : Type := Z.
Definition StatusPlaced : Status := 0%Z.
Definition StatusActivated : Status := 1%Z.

(** ** Events

    [Event] is an exported interface with the single method [ID].  The
    package implements it with [Placed] and [Activated]; [OtherEvent] stands
    for any implementation from outside the package, for which the type
    switch of [handle] has no case.  A nil interface value, on which the
    call of [ID] panics, is not an [Event] here. *)
Inductive Event : Type :=
| Placed (OrderID : string)
| Activated (OrderID : string)
| OtherEvent (id : string).

(** The method [ID()] of the interface. *)
Definition Event_ID (e : Event) : string :=
  match e with
  | Placed OrderID => OrderID
  | Activated OrderID => OrderID
  | OtherEvent id => id
  end.

(** [type Line struct {}]. *)
Inductive Line : Type := mkLine.

(** ** The aggregate root *)
Module Order.
Record t : Type := mk
  { ID : string;
    Status : Status;
    uncommitted : list Event }.

(** The zero value [Order{}], also what [var o Order] declares. *)
Definition zero : t := mk "" 0%Z [].
End Order.

Definition Order : Type := Order.t.

(** [handle] updates the status for the two events of the package and leaves
    the order alone for any other event. *)
Definition handle (o : Order) (e : Event) : Order :=
  match e with
  | Activated _ => Order.mk (Order.ID o) StatusActivated (Order.uncommitted o)
  | Placed _ => Order.mk (Order.ID o) StatusPlaced (Order.uncommitted o)
  | OtherEvent _ => o
  end.

(** [apply] sets the identifier from the event, dispatches to [handle] and,
    for a new event only, appends it to the uncommitted buffer. *)
Definition apply (o : Order) (e : Event) (isNew : bool) : Order :=
  let o1 := Order.mk (Event_ID e) (Order.Status o) (Order.uncommitted o) in
  let o2 := handle o1 e in
  if isNew
  then Order.mk (Order.ID o2) (Order.Status o2) (Order.uncommitted o2 ++ [e])
  else o2.

(** [loadFromHistory]: the loop over [events], starting from [var o Order]. *)
Definition loadFromHistory (events : list Event) : Order :=
  fold_left (fun o e => apply o e false) events Order.zero.

(** The method [Place] of [Order]: the receiver after the call and the
    returned error. *)
Definition Order_Place (o : Order) (orderLines : list Line)
  : Order * option error :=
  if Order.ID o =? ""
  then (o, Some errAlreadyPlaced)
  else if (length orderLines =? 0)%nat
       then (o, Some errEmptyOrderLine)
       else (apply o (Placed (Order.ID o)) true, None).

(** The method [Activate] of [Order]: the receiver after the call. *)
Definition Order_Activate (o : Order) : Order :=
  if (Order.Status o =? StatusPlaced)%Z
  then apply o (Activated (Order.ID o)) true
  else o.

(** ** Commands

    [Handle] takes an [interface{}] and switches on its dynamic type:
    [Place], [Activate], or anything else, which no case matches. *)
Inductive Command : Type :=
| Place (OrderID : string) (Lines : list Line)
| Activate (OrderID : string)
| OtherCommand.

(** ** The event store *)
Module EventStore.
(** The interface [EventStore], over the state [S] of an implementation.
    Either method may change the state of the implementation behind the
    interface, so both return the state after the call; [Load] returns it
    together with its two results. *)
Class t (S : Type) : Type :=
  { Save : S -> string -> list Event -> S;
    Load : S -> string -> S * (list Event * option error) }.
End EventStore.

Record eventStore : Type := mkEventStore { events : list Event }.

(** The method [Save] of [eventStore] appends to the single log; [id] is
    not used. *)
Definition eventStore_Save (s : eventStore) (id : string)
  (evs : list Event) : eventStore :=
  mkEventStore (events s ++ evs).

(** The loop of the method [Load] of [eventStore]: [result] grows by the
    events whose identifier is [id], in the order of the log. *)
Definition collect (id : string) (log : list Event) : list Event :=
  fold_left
    (fun result e => if Event_ID e =? id then result ++ [e] else result)
    log [].

(** The method [Load] of [eventStore]; it only reads its receiver. *)
Definition eventStore_Load (s : eventStore) (id : string)
  : list Event * option error :=
  let result := collect id (events s) in
  if (length result =? 0)%nat
  then ([], Some errOrderNotFound)
  else (result, None).

Definition NewEventStore : eventStore := mkEventStore [].

#[export] Instance eventStore_EventStore : EventStore.t eventStore :=
  {| EventStore.Save := eventStore_Save;
     EventStore.Load := fun s id => (s, eventStore_Load s id) |}.

(** A store that delegates to an [eventStore] and counts the calls it
    receives; it is used to observe whether the repository touches its
    store. *)
Record countingStore : Type := mkCountingStore
  { backing : eventStore;
    saveCalls : nat;
    loadCalls : nat }.

#[export] Instance countingStore_EventStore : EventStore.t countingStore :=
  {| EventStore.Save := fun s id evs =>
       mkCountingStore (eventStore_Save (backing s) id evs)
         (S (saveCalls s)) (loadCalls s);
     EventStore.Load := fun s id =>
       (mkCountingStore (backing s) (saveCalls s) (S (loadCalls s)),
        eventStore_Load (backing s) id) |}.

(** ** The repository *)
Module Repository.
(** The interface [Repository], over the state [R] of an implementation;
    both methods return the state after the call. *)
Class t (R : Type) : Type :=
  { Save : R -> Order -> R;
    Load : R -> string -> R * Order }.
End Repository.

Record defaultRepository (S : Type) : Type := mkRepository { Store : S }.
Arguments mkRepository {S} _.
Arguments Store {S} _.

Section DefaultRepository.
Context {S : Type} `{EventStore.t S}.

(** The method [Save] of [defaultRepository]. *)
Definition defaultRepository_Save (r : defaultRepository S)
  (order : Order) : defaultRepository S :=
  if (0 <? length (Order.uncommitted order))%nat
  then mkRepository
         (EventStore.Save (Store r) (Order.ID order)
            (Order.uncommitted order))
  else r.

(** The method [Load] of [defaultRepository]. *)
Definition defaultRepository_Load (r : defaultRepository S)
  (id : string) : defaultRepository S * Order :=
  let '(store, (evs, err)) := EventStore.Load (Store r) id in
  (mkRepository store,
   match err with
   | Some _ => Order.zero
   | None => loadFromHistory evs
   end).

#[export] Instance defaultRepository_Repository
  : Repository.t (defaultRepository S) :=
  {| Repository.Save := defaultRepository_Save;
     Repository.Load := defaultRepository_Load |}.
End DefaultRepository.

Definition NewRepository {S : Type} (store : S) : defaultRepository S :=
  mkRepository store.

(** ** The command handler *)
Record commandHandler (R : Type) : Type := mkHandler { Repository : R }.
Arguments mkHandler {R} _.
Arguments Repository {R} _.

Section CommandHandler.
Context {R : Type} `{Repository.t R}.

(** The method [Handle] of [commandHandler]: the handler after the call,
    and the errors passed to [log.Println]. *)
Definition commandHandler_Handle (h : commandHandler R) (c : Command)
  : commandHandler R * list error :=
  match c with
  | Place OrderID Lines =>
      let order := Order.mk OrderID 0%Z [] in
      let (order', err) := Order_Place order Lines in
      let logged := match err with Some e => [e] | None => [] end in
      (mkHandler (Repository.Save (Repository h) order'), logged)
  | Activate OrderID =>
      let (r, order) := Repository.Load (Repository h) OrderID in
      let order' := Order_Activate order in
      (mkHandler (Repository.Save r order'), [])
  | OtherCommand => (h, [])
  end.
End CommandHandler.

Definition NewCommandHandler {R : Type} (r : R) : commandHandler R :=
  mkHandler r.

(** ** Definitions used to state the properties *)

(** The predicate the loop of [Load] tests. *)
Definition owned (id : string) (e : Event) : bool := Event_ID e =? id.

(** The loop of [loadFromHistory], from any starting order. *)
Definition replay (o : Order) (evs : list Event) : Order :=
  fold_left (fun o e => apply o e false) evs o.

(** ** Sequences of operations on an aggregate *)

(** The two operations of the aggregate, as data. *)
Inductive Operation : Type :=
| DoPlace (lines : list Line)
| DoActivate.

Definition perform (o : Order) (op : Operation) : Order * option error :=
  match op with
  | DoPlace lines => Order_Place o lines
  | DoActivate => (Order_Activate o, None)
  end.

(** Performs the operations in turn; [None] as soon as one of them fails. *)
Fixpoint performAll (o : Order) (ops : list Operation) : option Order :=
  match ops with
  | [] => Some o
  | op :: ops' =>
      match perform o op with
      | (o', None) => performAll o' ops'
      | (_, Some _) => None
      end
  end.

(** What holds of an order while operations are performed on an order
    seeded with [id]: the identifier stays [id], every uncommitted event
    carries it, and replaying a non-empty buffer on any order gives the
    identifier and the status the order has in memory. *)
Definition steady (id : string) (o : Order) : Prop :=
  Order.ID o = id /\
  Forall (fun e => Event_ID e = id) (Order.uncommitted o) /\
  (Order.uncommitted o <> [] ->
   forall base,
     Order.ID (replay base (Order.uncommitted o)) = id /\
     Order.Status (replay base (Order.uncommitted o)) = Order.Status o).

(** An order can still generate its first event, or already has one. *)
Definition productive (o : Order) : Prop :=
  Order.Status o = StatusPlaced \/ Order.uncommitted o <> [].

(** ** Sequences of commands and the life cycle they record *)

(** Handles the commands in turn, each on the handler the previous one
    left; the log output is dropped. *)
Definition handleAll {R : Type} `{Repository.t R}
  (h : commandHandler R) (cmds : list Command) : commandHandler R :=
  fold_left (fun h c => fst (commandHandler_Handle h c)) cmds h.

(** The identifier a command names in its field [OrderID], if it is one of
    the two commands of the package. *)
Definition Command_OrderID (c : Command) : option string :=
  match c with
  | Place OrderID _ => Some OrderID
  | Activate OrderID => Some OrderID
  | OtherCommand => None
  end.

(** Whether an event is one of the two events of the package. *)
Definition ofPackage (e : Event) : bool :=
  match e with
  | Placed _ | Activated _ => true
  | OtherEvent _ => false
  end.

(** Where the history of one identifier stands when read from its start:
    nothing yet, last placed, last activated, or [Broken] once an
    [Activated] event came without a [Placed] event directly before it or
    an event from outside the package appeared. *)
Inductive Phase : Type := Unplaced | IsPlaced | IsActivated | Broken.

Definition lifecycleStep (p : Phase) (e : Event) : Phase :=
  match p, e with
  | Broken, _ => Broken
  | _, Placed _ => IsPlaced
  | IsPlaced, Activated _ => IsActivated
  | _, Activated _ => Broken
  | _, OtherEvent _ => Broken
  end.

Definition lifecycle (history : list Event) : Phase :=
  fold_left lifecycleStep history Unplaced.

(** The handler of the tests of the package, after the [Place] command
    they start with. *)
Definition after_place : commandHandler (defaultRepository eventStore) :=
  fst (commandHandler_Handle
         (NewCommandHandler (NewRepository NewEventStore))
         (Place "ABC123" [mkLine])).

(** ** The two tests of the package, evaluated on the embedding *)

Example TestPlaceOrder :
  let o := snd (Repository.Load (Repository after_place) "ABC123") in
  Order.ID o = "ABC123" /\ Order.Status o = StatusPlaced.
Proof. split; reflexivity. Qed.

Example TestActivateOrder :
  let h := fst (commandHandler_Handle after_place (Activate "ABC123")) in
  let o := snd (Repository.Load (Repository h) "ABC123") in
  Order.ID o = "ABC123" /\ Order.Status o = StatusActivated.
Proof. split; reflexivity. Qed.

(** ** The aggregate: [Place] and [Activate] *)

Section Aggregate.
Implicit Types (o : Order) (e : Event) (lines : list Line).

Lemma apply_new_uncommitted o e :
  Order.uncommitted (apply o e true) = Order.uncommitted o ++ [e].
Proof. destruct e; reflexivity. Qed.

Lemma apply_replay_uncommitted o e :
  Order.uncommitted (apply o e false) = Order.uncommitted o.
Proof. destruct e; reflexivity. Qed.

Lemma apply_ID o e isNew : Order.ID (apply o e isNew) = Event_ID e.
Proof. destruct e, isNew; reflexivity. Qed.

(** The status after [apply] does not depend on [isNew]. *)
Lemma apply_Status o e isNew :
  Order.Status (apply o e isNew) = Order.Status (handle o e).
Proof. destruct e, isNew; reflexivity. Qed.

(** [Place] either fails and returns the receiver as it was, or succeeds
    having applied one [Placed] event that carries the identifier. *)
Lemma Place_cases o lines :
  (exists err, Order_Place o lines = (o, Some err)) \/
  Order_Place o lines = (apply o (Placed (Order.ID o)) true, None).
Proof.
  unfold Order_Place.
  destruct (Order.ID o =? ""); [left; eauto|].
  destruct (length lines =? 0)%nat; [left; eauto|right; reflexivity].
Qed.

(** Outside the status [StatusPlaced], [Activate] returns the receiver as
    it was. *)
Lemma Activate_unless_Placed o :
  Order.Status o <> StatusPlaced -> Order_Activate o = o.
Proof.
  intros Hs. unfold Order_Activate.
  destruct (Z.eqb_spec (Order.Status o) StatusPlaced); [contradiction|].
  reflexivity.
Qed.
End Aggregate.

(** C1, as stated, fails: on an order whose identifier is set, [Place] with
    one line succeeds and applies a [Placed] event. *)
Lemma Place_identified_order_succeeds :
  let o := Order.mk "ABC123" StatusPlaced [] in
  Order.ID o <> "" /\
  Order_Place o [mkLine]
  = (Order.mk "ABC123" StatusPlaced [Placed "ABC123"], None) /\
  Order_Place o [mkLine] <> (o, Some errAlreadyPlaced).
Proof. repeat split; discriminate. Qed.

(** The guard on the identifier: on an order whose identifier is empty,
    [Place] fails with [errAlreadyPlaced] and returns the order as it
    was. *)
Lemma Place_unidentified_AlreadyPlaced (o : Order) (lines : list Line) :
  Order.ID o = "" -> Order_Place o lines = (o, Some errAlreadyPlaced).
Proof. intros Hid. unfold Order_Place. rewrite Hid. reflexivity. Qed.

(** C1, amended: for every order whose identifier is set and every lines
    argument, [Place] applies no event whenever it fails (the order is
    returned as it was); and when such an order is freshly seeded, with the
    status zero and no uncommitted events as the handler constructs it,
    [Place] does not fail with [errAlreadyPlaced]: with at least one line it
    succeeds and applies exactly one [Placed] event that carries the
    identifier, and with no lines it fails with [errEmptyOrderLine].
    Nothing is stated about an identified order that was placed or
    activated before. *)
Theorem Place_on_identified_order (o : Order) (lines : list Line) :
  Order.ID o <> "" ->
  (snd (Order_Place o lines) <> None -> fst (Order_Place o lines) = o) /\
  (Order.Status o = 0%Z -> Order.uncommitted o = [] ->
   Order_Place o lines
   = match lines with
     | [] => (o, Some errEmptyOrderLine)
     | _ :: _ =>
         (Order.mk (Order.ID o) StatusPlaced [Placed (Order.ID o)], None)
     end).
Proof.
  intros Hid. unfold Order_Place.
  destruct (String.eqb_spec (Order.ID o) "") as [Hempty|_];
    [contradiction|].
  destruct lines as [|l lines]; simpl.
  - split; reflexivity.
  - split; [intros Hne; now contradiction Hne|].
    intros _ Hunc. unfold apply. simpl. now rewrite Hunc.
Qed.

Lemma Place_on_identified_order_witness :
  Order.ID (Order.mk "ABC123" 0%Z []) <> "" /\
  Order_Place (Order.mk "ABC123" 0%Z []) [mkLine]
  = (Order.mk "ABC123" StatusPlaced [Placed "ABC123"], None).
Proof.
  split; [discriminate|].
  apply (Place_on_identified_order (Order.mk "ABC123" 0%Z []) [mkLine]);
    [discriminate|reflexivity|reflexivity].
Defined.




(** C2, at the input where the code departs from it: the zero-value order
    has the status [StatusPlaced], so [Activate] applies an [Activated]
    event with the empty identifier to it; handling [Activate] for an
    identifier the store does not know then records that event. *)
Theorem Activate_zero_order_applies_event :
  Order.Status Order.zero = StatusPlaced /\
  Order_Activate Order.zero = Order.mk "" StatusActivated [Activated ""] /\
  events (Store (Repository
    (fst (commandHandler_Handle
            (NewCommandHandler (NewRepository NewEventStore))
            (Activate "UNKNOWN")))))
  = [Activated ""].
Proof. repeat split. Qed.

(** C9: on every order whose status is [StatusActivated], [Activate] returns
    the order as it was: no event joins the uncommitted buffer and the
    status is unchanged. *)
Theorem Activate_idempotent (o : Order) :
  Order.Status o = StatusActivated -> Order_Activate o = o.
Proof.
  intros Hs. apply Activate_unless_Placed. rewrite Hs. discriminate.
Qed.

Lemma Activate_idempotent_witness :
  let o := Order.mk "ABC123" StatusActivated [] in
  Order.Status o = StatusActivated /\ Order_Activate o = o.
Proof.
  split; [reflexivity|].
  apply (Activate_idempotent (Order.mk "ABC123" StatusActivated [])).
  reflexivity.
Defined.

(** ** The in-memory event store *)

Section Store.
Implicit Types (s : eventStore) (id : string) (log evs : list Event).

Lemma collect_from id log : forall acc,
  fold_left
    (fun result e => if Event_ID e =? id then result ++ [e] else result)
    log acc
  = acc ++ filter (owned id) log.
Proof.
  induction log as [|e log IH]; intros acc; simpl.
  - now rewrite app_nil_r.
  - rewrite IH. unfold owned at 2.
    destruct (Event_ID e =? id); [|reflexivity].
    now rewrite <- app_assoc.
Qed.

(** The loop keeps exactly the events of [id], in the order of the log. *)
Lemma collect_filter id log : collect id log = filter (owned id) log.
Proof. unfold collect. now rewrite collect_from. Qed.

Lemma collect_app id log evs :
  collect id (log ++ evs) = collect id log ++ collect id evs.
Proof. rewrite !collect_filter. apply filter_app. Qed.

Lemma collect_owned id evs :
  Forall (fun e => Event_ID e = id) evs -> collect id evs = evs.
Proof.
  rewrite collect_filter.
  induction 1 as [|e evs He _ IH]; simpl; [reflexivity|].
  unfold owned at 1. rewrite He, String.eqb_refl. now rewrite IH.
Qed.

Lemma collect_nil id log :
  (forall e, In e log -> Event_ID e <> id) -> collect id log = [].
Proof.
  rewrite collect_filter. intros Hlog.
  induction log as [|e log IH]; simpl; [reflexivity|].
  unfold owned at 1.
  destruct (String.eqb_spec (Event_ID e) id) as [He|_].
  - exfalso. apply (Hlog e); [now left|exact He].
  - apply IH. intros e' He'. apply Hlog. now right.
Qed.

(** [Load] returns the collected events, and an error exactly when there
    are none. *)
Lemma Load_collect s id :
  eventStore_Load s id
  = (collect id (events s),
     match collect id (events s) with
     | [] => Some errOrderNotFound
     | _ :: _ => None
     end).
Proof.
  unfold eventStore_Load.
  destruct (collect id (events s)); reflexivity.
Qed.

Lemma Load_without_events s id :
  (forall e, In e (events s) -> Event_ID e <> id) ->
  eventStore_Load s id = ([], Some errOrderNotFound).
Proof.
  intros Hnone. rewrite Load_collect, (collect_nil id _ Hnone).
  reflexivity.
Qed.
End Store.

(** C4, as stated, fails: [Save] appends whatever it is given to the one
    log and ignores [id], and [Load] keeps only the events whose own
    identifier is [id]; an event appended under another identifier than its
    own is not returned. *)
Lemma Save_other_identifier_not_loaded :
  let s := eventStore_Save NewEventStore "A" [Placed "B"] in
  eventStore_Load s "A" = ([], Some errOrderNotFound) /\
  fst (eventStore_Load s "A")
  <> fst (eventStore_Load NewEventStore "A") ++ [Placed "B"].
Proof. split; [reflexivity|discriminate]. Qed.

(** C4, amended: for every identifier, every prior store and every sequence
    of events that all carry that identifier, after [Save] the log is the
    prior log followed by the events (nothing is reordered or dropped),
    [Load] of the identifier returns the prior history of the identifier
    followed by the events, with [errOrderNotFound] exactly when that is
    empty, and saving the empty sequence leaves the store unchanged. *)
Theorem Save_then_Load (s : eventStore) (id : string) (evs : list Event) :
  Forall (fun e => Event_ID e = id) evs ->
  events (eventStore_Save s id evs) = events s ++ evs /\
  eventStore_Load (eventStore_Save s id evs) id
  = (fst (eventStore_Load s id) ++ evs,
     match fst (eventStore_Load s id) ++ evs with
     | [] => Some errOrderNotFound
     | _ :: _ => None
     end) /\
  eventStore_Save s id [] = s.
Proof.
  intros Hevs. split; [reflexivity|]. split.
  - rewrite !Load_collect. simpl.
    now rewrite collect_app, (collect_owned id evs Hevs).
  - destruct s as [log]. unfold eventStore_Save. simpl.
    now rewrite app_nil_r.
Qed.

Lemma Save_then_Load_witness :
  let s := mkEventStore [Placed "Y"; Placed "Z"] in
  let evs := [Activated "Y"] in
  Forall (fun e => Event_ID e = "Y") evs /\
  eventStore_Load (eventStore_Save s "Y" evs) "Y"
  = ([Placed "Y"; Activated "Y"], None).
Proof.
  split.
  - repeat constructor.
  - apply (Save_then_Load (mkEventStore [Placed "Y"; Placed "Z"]) "Y"
             [Activated "Y"]).
    repeat constructor.
Defined.

(** C5: for every identifier for which the log holds no event, [Load] fails
    with [errOrderNotFound], whether other identifiers have events or
    not. *)
Theorem Load_NotFound (s : eventStore) (id : string) :
  (forall e, In e (events s) -> Event_ID e <> id) ->
  eventStore_Load s id = ([], Some errOrderNotFound).
Proof. apply Load_without_events. Qed.

Lemma Load_NotFound_witness :
  let s := mkEventStore [Placed "A"; Activated "A"] in
  (forall e, In e (events s) -> Event_ID e <> "B") /\
  eventStore_Load s "B" = ([], Some errOrderNotFound).
Proof.
  assert (Hnone : forall e,
             In e [Placed "A"; Activated "A"] -> Event_ID e <> "B").
  { intros e [<-|[<-|[]]]; discriminate. }
  split; [exact Hnone|].
  apply (Load_NotFound (mkEventStore [Placed "A"; Activated "A"]) "B").
  exact Hnone.
Defined.

(** ** Replay *)

Section Replay.
Implicit Types (o : Order) (e : Event) (evs : list Event).

Lemma loadFromHistory_replay evs :
  loadFromHistory evs = replay Order.zero evs.
Proof. reflexivity. Qed.

Lemma replay_app o evs evs' :
  replay o (evs ++ evs') = replay (replay o evs) evs'.
Proof. apply fold_left_app. Qed.

Lemma replay_snoc o evs e :
  replay o (evs ++ [e]) = apply (replay o evs) e false.
Proof. unfold replay. now rewrite fold_left_app. Qed.

(** Replay never touches the uncommitted buffer. *)
Lemma replay_uncommitted evs : forall o,
  Order.uncommitted (replay o evs) = Order.uncommitted o.
Proof.
  unfold replay.
  induction evs as [|e evs IH]; intros o; cbn [fold_left]; [reflexivity|].
  rewrite IH. apply apply_replay_uncommitted.
Qed.

Lemma loadFromHistory_uncommitted evs :
  Order.uncommitted (loadFromHistory evs) = [].
Proof. rewrite loadFromHistory_replay. apply replay_uncommitted. Qed.
End Replay.

(** ** The repository *)

Section RepositoryProperties.
Context {S : Type} `{EventStore.t S}.
Implicit Types (r : defaultRepository S) (o : Order) (id : string).

(** Whatever the store answers, a loaded order has no uncommitted
    events. *)
Lemma Load_uncommitted r id :
  Order.uncommitted (snd (defaultRepository_Load r id)) = [].
Proof.
  unfold defaultRepository_Load.
  destruct (EventStore.Load (Store r) id) as [store [evs [err|]]]; simpl.
  - reflexivity.
  - apply loadFromHistory_uncommitted.
Qed.

Lemma Save_by_cases r o :
  defaultRepository_Save r o
  = match Order.uncommitted o with
    | [] => r
    | _ :: _ =>
        mkRepository
          (EventStore.Save (Store r) (Order.ID o) (Order.uncommitted o))
    end.
Proof.
  unfold defaultRepository_Save.
  destruct (Order.uncommitted o); reflexivity.
Qed.
End RepositoryProperties.

(** Over the in-memory store, the repository's [Load] leaves the repository
    as it was. *)
Lemma Load_in_memory (r : defaultRepository eventStore) (id : string) :
  defaultRepository_Load r id
  = (r, match snd (eventStore_Load (Store r) id) with
        | Some _ => Order.zero
        | None => loadFromHistory (fst (eventStore_Load (Store r) id))
        end).
Proof.
  unfold defaultRepository_Load.
  cbn [EventStore.Load eventStore_EventStore].
  destruct r as [s]. cbn [Store].
  destruct (eventStore_Load s id) as [evs err]. reflexivity.
Qed.

(** C7: for every implementation of the store and every order, the
    repository's [Save] returns the repository untouched when the order has
    no uncommitted events, and otherwise makes the single call [Save] of the
    store with the identifier of the order and its uncommitted events as
    they are; saving an order just loaded leaves the repository as the load
    left it.  On a store that counts the calls it receives, [Save] of the
    repository never calls [Load], calls [Save] once exactly when the buffer
    is not empty, and the log grows by exactly the buffer. *)
Theorem repository_Save_uncommitted_only
  (S : Type) (ES : EventStore.t S) (r : defaultRepository S)
  (rc : defaultRepository countingStore) (o : Order) (id : string) :
  defaultRepository_Save r o
  = match Order.uncommitted o with
    | [] => r
    | _ :: _ =>
        mkRepository
          (EventStore.Save (Store r) (Order.ID o) (Order.uncommitted o))
    end /\
  defaultRepository_Save (fst (defaultRepository_Load r id))
    (snd (defaultRepository_Load r id))
  = fst (defaultRepository_Load r id) /\
  saveCalls (Store (defaultRepository_Save rc o))
  = (saveCalls (Store rc)
     + match Order.uncommitted o with [] => 0 | _ :: _ => 1 end)%nat /\
  loadCalls (Store (defaultRepository_Save rc o)) = loadCalls (Store rc) /\
  events (backing (Store (defaultRepository_Save rc o)))
  = events (backing (Store rc)) ++ Order.uncommitted o.
Proof.
  split; [apply Save_by_cases|]. split.
  - now rewrite Save_by_cases, Load_uncommitted.
  - rewrite Save_by_cases.
    destruct (Order.uncommitted o) as [|e evs]; simpl.
    + now rewrite Nat.add_0_r, app_nil_r.
    + repeat split. lia.
Qed.

(** C8: for every implementation of the store and every identifier for
    which the store's [Load] fails with [errOrderNotFound], the repository's
    [Load] returns the zero-value order: empty identifier, status zero and
    no uncommitted events.  The repository's [Load] has no error among its
    results, so no error of the store can leave the repository. *)
Theorem repository_Load_soft_miss
  (S : Type) (ES : EventStore.t S) (r : defaultRepository S) (id : string) :
  snd (snd (EventStore.Load (Store r) id)) = Some errOrderNotFound ->
  snd (defaultRepository_Load r id) = Order.mk "" 0%Z [].
Proof.
  unfold defaultRepository_Load.
  destruct (EventStore.Load (Store r) id) as [store [evs err]]; simpl.
  intros ->. reflexivity.
Qed.

Lemma repository_Load_soft_miss_witness :
  let r := NewRepository (mkEventStore [Placed "ABC123"]) in
  snd (snd (EventStore.Load (Store r) "UNKNOWN")) = Some errOrderNotFound /\
  snd (defaultRepository_Load r "UNKNOWN") = Order.mk "" 0%Z [].
Proof.
  split; [reflexivity|].
  apply (repository_Load_soft_miss eventStore eventStore_EventStore
           (NewRepository (mkEventStore [Placed "ABC123"])) "UNKNOWN").
  reflexivity.
Defined.

(** ** Round trip through the repository *)

Section RoundTrip.
Variable id : string.
Implicit Types (o : Order) (op : Operation) (ops : list Operation).

Lemma steady_seed : steady id (Order.mk id 0%Z []).
Proof.
  split; [reflexivity|]. split; [constructor|].
  intros Hne. now contradiction Hne.
Qed.

(** A new event that carries [id] and is of the package keeps [steady]. *)
Lemma steady_apply o e :
  steady id o -> Event_ID e = id -> (forall x, e <> OtherEvent x) ->
  steady id (apply o e true).
Proof.
  intros (Hid & Hall & _) He Hkind.
  split; [now rewrite apply_ID|].
  rewrite apply_new_uncommitted. split.
  - apply Forall_app. split; [exact Hall|now constructor].
  - intros _ base. rewrite replay_snoc, apply_ID, !apply_Status.
    split; [exact He|].
    destruct e; try reflexivity. now contradiction (Hkind id0).
Qed.

Lemma steady_perform o op o' :
  steady id o -> perform o op = (o', None) -> steady id o'.
Proof.
  intros Hst Hop. pose proof Hst as (Hid & _).
  destruct op as [lines|]; simpl in Hop.
  - destruct (Place_cases o lines) as [[err Hfail]|Hok].
    + rewrite Hfail in Hop. discriminate.
    + replace o' with (apply o (Placed (Order.ID o)) true) by congruence.
      apply steady_apply; [exact Hst|exact Hid|discriminate].
  - injection Hop as <-. unfold Order_Activate.
    destruct (Order.Status o =? StatusPlaced)%Z; [|exact Hst].
    apply steady_apply; [exact Hst|exact Hid|discriminate].
Qed.

Lemma steady_performAll ops : forall o o',
  steady id o -> performAll o ops = Some o' -> steady id o'.
Proof.
  induction ops as [|op ops IH]; intros o o' Hst Hrun; simpl in Hrun.
  - now injection Hrun as <-.
  - destruct (perform o op) as [o1 [err|]] eqn:Hop; [discriminate|].
    apply (IH o1); [|exact Hrun].
    now apply (steady_perform o op).
Qed.

(** A successful operation on a productive order leaves a non-empty
    buffer: [Place] has appended its event, and [Activate] either finds
    the status [StatusPlaced] and appends, or leaves a buffer that was not
    empty. *)
Lemma perform_generates o op o' :
  productive o -> perform o op = (o', None) ->
  Order.uncommitted o' <> [].
Proof.
  intros Hprod Hop.
  assert (Hsnoc : forall e, Order.uncommitted (apply o e true) <> []).
  { intros e. rewrite apply_new_uncommitted.
    destruct (Order.uncommitted o); discriminate. }
  destruct op as [lines|]; simpl in Hop.
  - destruct (Place_cases o lines) as [[err Hfail]|Hok].
    + rewrite Hfail in Hop. discriminate.
    + replace o' with (apply o (Placed (Order.ID o)) true) by congruence.
      apply Hsnoc.
  - injection Hop as <-. unfold Order_Activate.
    destruct (Z.eqb_spec (Order.Status o) StatusPlaced) as [_|Hs].
    + apply Hsnoc.
    + destruct Hprod as [Hs'|Hne]; [contradiction|exact Hne].
Qed.

Lemma performAll_generates ops : forall o o',
  productive o -> ops <> [] -> performAll o ops = Some o' ->
  Order.uncommitted o' <> [].
Proof.
  induction ops as [|op ops IH]; intros o o' Hprod Hne Hrun.
  - now contradiction Hne.
  - simpl in Hrun.
    destruct (perform o op) as [o1 [err|]] eqn:Hop; [discriminate|].
    pose proof (perform_generates o op o1 Hprod Hop) as Hgen.
    destruct ops as [|op' ops'].
    + simpl in Hrun. now injection Hrun as <-.
    + apply (IH o1); [now right|discriminate|exact Hrun].
Qed.

(** Saving a steady order with a non-empty buffer and loading its
    identifier back replays the buffer last, whatever the store held. *)
Lemma steady_round_trip (r : defaultRepository eventStore) o :
  steady id o -> Order.uncommitted o <> [] ->
  let o' := snd (defaultRepository_Load (defaultRepository_Save r o)
                   (Order.ID o)) in
  Order.ID o' = Order.ID o /\ Order.Status o' = Order.Status o.
Proof.
  intros (Hid & Hall & Hreplay) Hne. specialize (Hreplay Hne).
  rewrite Save_by_cases.
  destruct (Order.uncommitted o) as [|e evs] eqn:Hunc;
    [now contradiction Hne|].
  rewrite Load_in_memory.
  cbn [snd Store EventStore.Save eventStore_EventStore].
  rewrite Load_collect. cbn [fst snd events eventStore_Save].
  rewrite collect_app, Hid, (collect_owned id (e :: evs) Hall).
  destruct (collect id (events (Store r)) ++ e :: evs) as [|e1 l] eqn:Hlog.
  { destruct (collect id (events (Store r))); discriminate. }
  rewrite <- Hlog, loadFromHistory_replay, replay_app.
  apply Hreplay.
Qed.
End RoundTrip.

(** C6, as stated, fails for the empty sequence of operations.  An order
    seeded with an identifier and saved as it is appends nothing, and
    loading the identifier back gives the zero-value order, whose
    identifier is empty.  The zero-value order saved as it is, over a store
    that holds an [Activated] event with the empty identifier, is loaded
    back with the status [StatusActivated]. *)
Lemma round_trip_without_operation :
  let o := Order.mk "X" 0%Z [] in
  let r := NewRepository NewEventStore in
  let r0 := NewRepository (mkEventStore [Activated ""]) in
  performAll o [] = Some o /\
  Order.ID
    (snd (defaultRepository_Load (defaultRepository_Save r o) (Order.ID o)))
  <> Order.ID o /\
  performAll Order.zero [] = Some Order.zero /\
  Order.Status
    (snd (defaultRepository_Load (defaultRepository_Save r0 Order.zero)
            (Order.ID Order.zero)))
  <> Order.Status Order.zero.
Proof. repeat split; discriminate. Qed.

(** C6, amended: for every non-empty sequence of operations that all succeed
    on a fresh order (status zero, no uncommitted events, seeded with any
    identifier), and whatever the store already holds, saving the order
    through the repository and loading its identifier back gives an order
    with the identifier and the status the order had in memory. *)
Theorem round_trip
  (r : defaultRepository eventStore) (id : string)
  (ops : list Operation) (o : Order) :
  ops <> [] ->
  performAll (Order.mk id 0%Z []) ops = Some o ->
  Order.ID
    (snd (defaultRepository_Load (defaultRepository_Save r o) (Order.ID o)))
  = Order.ID o /\
  Order.Status
    (snd (defaultRepository_Load (defaultRepository_Save r o) (Order.ID o)))
  = Order.Status o.
Proof.
  intros Hne Hrun.
  apply (steady_round_trip id r o).
  - apply (steady_performAll id ops _ o (steady_seed id) Hrun).
  - apply (performAll_generates ops (Order.mk id 0%Z []) o);
      [now left|exact Hne|exact Hrun].
Qed.

Lemma round_trip_witness :
  let r := NewRepository (mkEventStore [Placed "ABC123"; Placed "XYZ"]) in
  let ops := [DoPlace [mkLine]; DoActivate; DoActivate] in
  let o := Order.mk "ABC123" StatusActivated
             [Placed "ABC123"; Activated "ABC123"] in
  ops <> [] /\
  performAll (Order.mk "ABC123" 0%Z []) ops = Some o /\
  Order.ID
    (snd (defaultRepository_Load (defaultRepository_Save r o) (Order.ID o)))
  = Order.ID o /\
  Order.Status
    (snd (defaultRepository_Load (defaultRepository_Save r o) (Order.ID o)))
  = Order.Status o.
Proof.
  split; [discriminate|]. split; [reflexivity|].
  apply (round_trip
           (NewRepository (mkEventStore [Placed "ABC123"; Placed "XYZ"]))
           "ABC123" [DoPlace [mkLine]; DoActivate; DoActivate]
           (Order.mk "ABC123" StatusActivated
              [Placed "ABC123"; Activated "ABC123"])).
  - discriminate.
  - reflexivity.
Defined.

(** ** The command handler on an unknown identifier *)

(** C10, as stated, fails for the empty identifier: on a fresh store, which
    holds no event for it, handling [Activate] for the empty identifier
    appends the [Activated] event under that same identifier, so [Load] of
    the identifier of the command succeeds afterwards. *)
Lemma Handle_Activate_empty_identifier :
  let h := NewCommandHandler (NewRepository NewEventStore) in
  let s' := Store (Repository (fst (commandHandler_Handle h (Activate "")))) in
  (forall e, In e (events (Store (Repository h))) -> Event_ID e <> "") /\
  eventStore_Load s' "" = ([Activated ""], None) /\
  snd (eventStore_Load s' "") <> Some errOrderNotFound.
Proof.
  split; [intros e []|]. split; [reflexivity|discriminate].
Qed.

(** C10, amended: for every handler over the default repository and the
    in-memory store, and every identifier for which the store holds no
    event, handling [Activate] for it logs nothing and appends exactly one
    event to the log, an [Activated] event whose identifier is the empty
    string; afterwards [Load] of the empty string succeeds, and [Load] of
    the identifier of the command fails with [errOrderNotFound] exactly when
    that identifier is not the empty string. *)
Theorem Handle_Activate_unknown
  (h : commandHandler (defaultRepository eventStore)) (id : string) :
  (forall e, In e (events (Store (Repository h))) -> Event_ID e <> id) ->
  commandHandler_Handle h (Activate id)
  = (mkHandler (mkRepository (mkEventStore
       (events (Store (Repository h)) ++ [Activated ""]))), []) /\
  snd (eventStore_Load
         (Store (Repository (fst (commandHandler_Handle h (Activate id)))))
         "") = None /\
  (snd (eventStore_Load
          (Store (Repository (fst (commandHandler_Handle h (Activate id)))))
          id) = Some errOrderNotFound
   <-> id <> "").
Proof.
  intros Hnone.
  assert (Hrun : commandHandler_Handle h (Activate id)
                 = (mkHandler (mkRepository (mkEventStore
                      (events (Store (Repository h)) ++ [Activated ""]))),
                    [])).
  { unfold commandHandler_Handle.
    cbn [Repository.Save Repository.Load defaultRepository_Repository].
    rewrite Load_in_memory, (Load_without_events _ id Hnone).
    reflexivity. }
  split; [exact Hrun|]. rewrite Hrun.
  cbn [fst Repository Store]. rewrite !Load_collect.
  cbn [snd events]. rewrite !collect_app, (collect_nil id _ Hnone).
  split.
  - destruct (collect "" (events (Store (Repository h)))); reflexivity.
  - cbn. destruct id as [|c rest]; simpl.
    + split; [discriminate|intros Hid; now contradiction Hid].
    + split; [intros _; discriminate|reflexivity].
Qed.

Lemma Handle_Activate_unknown_witness :
  let h := NewCommandHandler (NewRepository (mkEventStore [Placed "ABC123"])) in
  (forall e, In e (events (Store (Repository h))) -> Event_ID e <> "UNKNOWN") /\
  commandHandler_Handle h (Activate "UNKNOWN")
  = (mkHandler (mkRepository (mkEventStore
       [Placed "ABC123"; Activated ""])), []).
Proof.
  assert (Hnone : forall e, In e [Placed "ABC123"] -> Event_ID e <> "UNKNOWN").
  { intros e [<-|[]]. discriminate. }
  split; [exact Hnone|].
  apply (Handle_Activate_unknown
           (NewCommandHandler
              (NewRepository (mkEventStore [Placed "ABC123"])))
           "UNKNOWN").
  exact Hnone.
Defined.

(** * Further properties of the code *)

(** ** The aggregate *)

Section AggregateOperations.
Implicit Types (o : Order) (e : Event) (lines : list Line).

Lemma Place_ok o lines :
  Order.ID o <> "" -> lines <> [] ->
  Order_Place o lines
  = (Order.mk (Order.ID o) StatusPlaced
       (Order.uncommitted o ++ [Placed (Order.ID o)]), None).
Proof.
  intros Hid Hlines. unfold Order_Place.
  destruct (String.eqb_spec (Order.ID o) ""); [contradiction|].
  destruct lines; [contradiction|reflexivity].
Qed.

Lemma Activate_ok o :
  Order.Status o = StatusPlaced ->
  Order_Activate o
  = Order.mk (Order.ID o) StatusActivated
      (Order.uncommitted o ++ [Activated (Order.ID o)]).
Proof. intros Hs. unfold Order_Activate. rewrite Hs. reflexivity. Qed.

(** Whether [Activate] fires or not, it is decided by the status alone. *)
Lemma Activate_cases o :
  Order.Status o = StatusPlaced /\
  Order_Activate o
  = Order.mk (Order.ID o) StatusActivated
      (Order.uncommitted o ++ [Activated (Order.ID o)]) \/
  Order.Status o <> StatusPlaced /\ Order_Activate o = o.
Proof.
  destruct (Z.eq_dec (Order.Status o) StatusPlaced) as [Hs|Hs].
  - left. split; [exact Hs|now apply Activate_ok].
  - right. split; [exact Hs|now apply Activate_unless_Placed].
Qed.

(** What an operation can do to an order: nothing, or append one event of
    the package that carries the identifier the order already has. *)
Lemma perform_cases o op :
  perform o op = (o, snd (perform o op)) \/
  exists e,
    ofPackage e = true /\ Event_ID e = Order.ID o /\
    perform o op = (apply o e true, None).
Proof.
  destruct op as [lines|]; simpl.
  - destruct (Place_cases o lines) as [[err ->] | ->].
    + now left.
    + right. exists (Placed (Order.ID o)). now repeat split.
  - unfold Order_Activate.
    destruct (Order.Status o =? StatusPlaced)%Z.
    + right. exists (Activated (Order.ID o)). now repeat split.
    + now left.
Qed.
End AggregateOperations.

(** X1: on every order whose identifier is not empty, [Place] with at least
    one line succeeds: it returns no error, keeps the identifier, sets the
    status to [StatusPlaced] and appends exactly one event, [Placed] with
    the identifier of the order, at the end of the uncommitted buffer. *)
Theorem Place_succeeds (o : Order) (lines : list Line) :
  Order.ID o <> "" -> lines <> [] ->
  Order_Place o lines
  = (Order.mk (Order.ID o) StatusPlaced
       (Order.uncommitted o ++ [Placed (Order.ID o)]), None).
Proof. apply Place_ok. Qed.

Lemma Place_succeeds_witness :
  let o := Order.mk "ABC123" StatusActivated [Activated "ABC123"] in
  Order.ID o <> "" /\ [mkLine; mkLine] <> [] /\
  Order_Place o [mkLine; mkLine]
  = (Order.mk "ABC123" StatusPlaced [Activated "ABC123"; Placed "ABC123"],
     None).
Proof.
  split; [discriminate|]. split; [discriminate|].
  apply (Place_succeeds
           (Order.mk "ABC123" StatusActivated [Activated "ABC123"])
           [mkLine; mkLine]); discriminate.
Defined.

(** X2: [Place] returns no error exactly when the identifier of the order is
    not empty and there is at least one line; whenever it returns an error
    the order is left as it was. *)
Theorem Place_succeeds_iff (o : Order) (lines : list Line) :
  (snd (Order_Place o lines) = None
   <-> Order.ID o <> "" /\ lines <> []) /\
  (snd (Order_Place o lines) <> None -> fst (Order_Place o lines) = o).
Proof.
  unfold Order_Place.
  destruct (String.eqb_spec (Order.ID o) "") as [Hid|Hid]; simpl.
  - split; [|reflexivity].
    split; [discriminate|]. intros [Hne _]. now contradiction Hne.
  - destruct lines as [|l lines]; simpl.
    + split; [|reflexivity].
      split; [discriminate|]. intros [_ Hne]. now contradiction Hne.
    + split.
      * split; [|reflexivity]. intros _. split; [exact Hid|discriminate].
      * intros Hne. now contradiction Hne.
Qed.

(** X3: on every order whose status is [StatusPlaced], [Activate] keeps the
    identifier, sets the status to [StatusActivated] and appends exactly one
    event, [Activated] with the identifier of the order, at the end of the
    uncommitted buffer. *)
Theorem Activate_Placed (o : Order) :
  Order.Status o = StatusPlaced ->
  Order_Activate o
  = Order.mk (Order.ID o) StatusActivated
      (Order.uncommitted o ++ [Activated (Order.ID o)]).
Proof. apply Activate_ok. Qed.

Lemma Activate_Placed_witness :
  let o := Order.mk "ABC123" StatusPlaced [Placed "ABC123"] in
  Order.Status o = StatusPlaced /\
  Order_Activate o
  = Order.mk "ABC123" StatusActivated [Placed "ABC123"; Activated "ABC123"].
Proof.
  split; [reflexivity|].
  apply (Activate_Placed (Order.mk "ABC123" StatusPlaced [Placed "ABC123"])).
  reflexivity.
Defined.

(** X4: for every order, whatever its status, calling [Activate] twice
    gives the same order as calling it once. *)
Theorem Activate_twice (o : Order) :
  Order_Activate (Order_Activate o) = Order_Activate o.
Proof.
  destruct (Activate_cases o) as [[_ ->]|[_ Hsame]].
  - now apply Activate_unless_Placed.
  - now rewrite !Hsame.
Qed.

(** X5: neither operation of the aggregate changes the identifier of the
    order, each leaves the uncommitted buffer as it was or appends one event
    to it, that event is [Placed] or [Activated] and carries the identifier
    of the order, and an operation that returns an error leaves the order as
    it was. *)
Theorem perform_frame (o : Order) (op : Operation) :
  Order.ID (fst (perform o op)) = Order.ID o /\
  (exists tail,
      Order.uncommitted (fst (perform o op)) = Order.uncommitted o ++ tail /\
      (length tail <= 1)%nat /\
      Forall (fun e => ofPackage e = true /\ Event_ID e = Order.ID o) tail) /\
  (snd (perform o op) <> None -> fst (perform o op) = o).
Proof.
  destruct (perform_cases o op) as [Hsame|(e & Hkind & He & Hnew)].
  - rewrite Hsame. cbn [fst]. split; [reflexivity|]. split; [|reflexivity].
    exists []. rewrite app_nil_r. repeat split; [simpl; lia|constructor].
  - rewrite Hnew. cbn [fst snd]. split; [now rewrite apply_ID|]. split.
    + exists [e]. rewrite apply_new_uncommitted.
      repeat split; [simpl; lia|]. now repeat constructor.
    + intros Hne. now contradiction Hne.
Qed.

(** ** The event store *)

Section StoreContents.
Implicit Types (s : eventStore) (id : string) (log evs : list Event).

Lemma collect_carries id log :
  Forall (fun e => Event_ID e = id) (collect id log).
Proof.
  rewrite collect_filter. apply Forall_forall. intros e He.
  apply filter_In in He as [_ He]. now apply String.eqb_eq.
Qed.

Lemma collect_some id log e :
  In e log -> Event_ID e = id -> collect id log <> [].
Proof.
  intros Hin He Hnil.
  assert (Hmem : In e (collect id log)).
  { rewrite collect_filter. apply filter_In. split; [exact Hin|].
    now apply String.eqb_eq. }
  rewrite Hnil in Hmem. exact Hmem.
Qed.

Lemma collect_snoc id log e :
  collect id (log ++ [e])
  = collect id log ++ (if Event_ID e =? id then [e] else []).
Proof.
  rewrite collect_app. reflexivity.
Qed.

Lemma collect_elsewhere id evs :
  Forall (fun e => Event_ID e <> id) evs -> collect id evs = [].
Proof.
  intros Hevs. apply collect_nil. now apply Forall_forall.
Qed.
End StoreContents.

(** X6: for every store and identifier, the events [Load] returns are
    exactly the events of the log whose own identifier is the requested
    one, in the order of the log, and [Load] returns no error exactly when
    the log holds at least one such event. *)
Theorem Load_exact (s : eventStore) (id : string) :
  fst (eventStore_Load s id)
  = filter (fun e => Event_ID e =? id) (events s) /\
  (snd (eventStore_Load s id) = None
   <-> exists e, In e (events s) /\ Event_ID e = id).
Proof.
  rewrite Load_collect. cbn [fst snd]. split; [apply collect_filter|].
  split.
  - intros Hok.
    destruct (collect id (events s)) as [|e l] eqn:Hc; [discriminate|].
    exists e.
    assert (Hmem : In e (collect id (events s))) by (rewrite Hc; now left).
    rewrite collect_filter in Hmem. apply filter_In in Hmem as [Hin He].
    split; [exact Hin|now apply String.eqb_eq].
  - intros (e & Hin & He).
    pose proof (collect_some id (events s) e Hin He) as Hne.
    destruct (collect id (events s)); [now contradiction Hne|reflexivity].
Qed.

(** X7: saving events that all carry other identifiers than [id], under any
    identifier, does not change what [Load] returns for [id]. *)
Theorem Load_after_Save_elsewhere
  (s : eventStore) (id id' : string) (evs : list Event) :
  Forall (fun e => Event_ID e <> id) evs ->
  eventStore_Load (eventStore_Save s id' evs) id = eventStore_Load s id.
Proof.
  intros Hevs. rewrite !Load_collect. cbn [events eventStore_Save].
  now rewrite collect_app, (collect_elsewhere id evs Hevs), app_nil_r.
Qed.

Lemma Load_after_Save_elsewhere_witness :
  let s := mkEventStore [Placed "A"] in
  let evs := [Placed "B"; Activated "B"] in
  Forall (fun e => Event_ID e <> "A") evs /\
  eventStore_Load (eventStore_Save s "B" evs) "A" = ([Placed "A"], None).
Proof.
  assert (Hevs : Forall (fun e => Event_ID e <> "A")
                   [Placed "B"; Activated "B"]).
  { repeat constructor; discriminate. }
  split; [exact Hevs|].
  rewrite (Load_after_Save_elsewhere (mkEventStore [Placed "A"]) "A" "B"
             [Placed "B"; Activated "B"] Hevs).
  reflexivity.
Defined.

(** ** Replay and the repository's [Load] *)

Section Loading.
Implicit Types (o : Order) (e : Event) (evs : list Event) (id : string).

Lemma replay_Status_cases evs : forall o,
  Order.Status o = StatusPlaced \/ Order.Status o = StatusActivated ->
  Order.Status (replay o evs) = StatusPlaced \/
  Order.Status (replay o evs) = StatusActivated.
Proof.
  unfold replay.
  induction evs as [|e evs IH]; intros o Ho; cbn [fold_left]; [exact Ho|].
  apply IH. rewrite apply_Status. destruct e; simpl; auto.
Qed.

(** After a non-empty history whose events all carry [id], the order
    carries [id]. *)
Lemma replay_ID evs id : forall o,
  Forall (fun e => Event_ID e = id) evs -> evs <> [] ->
  Order.ID (replay o evs) = id.
Proof.
  intros o Hall Hne.
  destruct (exists_last Hne) as (front & e & ->).
  rewrite replay_snoc, apply_ID.
  apply Forall_app in Hall as [_ Hlast]. now inversion Hlast.
Qed.

(** What the repository's [Load] returns over the in-memory store when the
    log holds an event for the identifier. *)
Lemma Load_known (r : defaultRepository eventStore) id :
  collect id (events (Store r)) <> [] ->
  defaultRepository_Load r id
  = (r, loadFromHistory (collect id (events (Store r)))).
Proof.
  intros Hne. rewrite Load_in_memory, Load_collect. cbn [fst snd].
  destruct (collect id (events (Store r))); [now contradiction Hne|].
  reflexivity.
Qed.

(** The order loaded for [id] once the log ends with an event for [id]. *)
Lemma Load_after_snoc (log : list Event) e id :
  Event_ID e = id ->
  snd (defaultRepository_Load (mkRepository (mkEventStore (log ++ [e]))) id)
  = apply (loadFromHistory (collect id log)) e false.
Proof.
  intros <-. rewrite Load_known; cbn [Store events snd].
  - rewrite collect_snoc, String.eqb_refl, loadFromHistory_replay.
    now rewrite replay_snoc.
  - rewrite collect_snoc, String.eqb_refl.
    destruct (collect (Event_ID e) log); discriminate.
Qed.
End Loading.

(** X8: whatever the implementation of the store answers, the order the
    repository's [Load] returns has no uncommitted events and its status is
    [StatusPlaced] or [StatusActivated]. *)
Theorem repository_Load_clean
  (S : Type) (ES : EventStore.t S) (r : defaultRepository S) (id : string) :
  Order.uncommitted (snd (defaultRepository_Load r id)) = [] /\
  (Order.Status (snd (defaultRepository_Load r id)) = StatusPlaced \/
   Order.Status (snd (defaultRepository_Load r id)) = StatusActivated).
Proof.
  split; [apply Load_uncommitted|].
  unfold defaultRepository_Load.
  destruct (EventStore.Load (Store r) id) as [store [evs [err|]]];
    cbn [snd].
  - now left.
  - rewrite loadFromHistory_replay. apply replay_Status_cases. now left.
Qed.

(** X9: over the in-memory store, when the log holds at least one event
    for an identifier, the repository's [Load] of that identifier leaves the
    store as it was and returns the replay of exactly those events, an order
    that carries the requested identifier. *)
Theorem repository_Load_known
  (r : defaultRepository eventStore) (id : string) (e : Event) :
  In e (events (Store r)) -> Event_ID e = id ->
  defaultRepository_Load r id
  = (r, loadFromHistory
          (filter (fun e => Event_ID e =? id) (events (Store r)))) /\
  Order.ID (snd (defaultRepository_Load r id)) = id.
Proof.
  intros Hin He.
  pose proof (collect_some id _ e Hin He) as Hne.
  rewrite (Load_known r id Hne). cbn [snd]. split.
  - now rewrite collect_filter.
  - rewrite loadFromHistory_replay.
    apply replay_ID; [apply collect_carries|exact Hne].
Qed.

Lemma repository_Load_known_witness :
  let r := NewRepository
             (mkEventStore [Placed "A"; Placed "B"; Activated "A"]) in
  In (Placed "A") (events (Store r)) /\ Event_ID (Placed "A") = "A" /\
  Order.ID (snd (defaultRepository_Load r "A")) = "A".
Proof.
  split; [now left|]. split; [reflexivity|].
  apply (repository_Load_known
           (NewRepository
              (mkEventStore [Placed "A"; Placed "B"; Activated "A"]))
           "A" (Placed "A")); [now left|reflexivity].
Defined.

(** ** The command handler *)

Section Handling.
Implicit Types (h : commandHandler (defaultRepository eventStore)).
Implicit Types (r : defaultRepository eventStore) (o : Order) (id : string).

(** Over the in-memory store, the repository's [Save] appends the buffer of
    the order to the log, empty or not. *)
Lemma Save_in_memory r o :
  defaultRepository_Save r o
  = mkRepository (mkEventStore (events (Store r) ++ Order.uncommitted o)).
Proof.
  rewrite Save_by_cases.
  destruct (Order.uncommitted o) as [|e evs]; [|reflexivity].
  destruct r as [[log]]. cbn [Store events]. now rewrite app_nil_r.
Qed.

Lemma Handle_Place_run h id lines :
  commandHandler_Handle h (Place id lines)
  = (mkHandler
       (defaultRepository_Save (Repository h)
          (fst (Order_Place (Order.mk id 0%Z []) lines))),
     match snd (Order_Place (Order.mk id 0%Z []) lines) with
     | Some e => [e]
     | None => []
     end).
Proof.
  unfold commandHandler_Handle.
  destruct (Order_Place (Order.mk id 0%Z []) lines) as [o' err].
  reflexivity.
Qed.

Lemma Handle_Activate_run h id :
  commandHandler_Handle h (Activate id)
  = (mkHandler
       (defaultRepository_Save (Repository h)
          (Order_Activate (snd (defaultRepository_Load (Repository h) id)))),
     []).
Proof.
  unfold commandHandler_Handle.
  cbn [Repository.Save Repository.Load defaultRepository_Repository].
  rewrite Load_in_memory. reflexivity.
Qed.

Lemma Handle_Place_ok h id lines :
  id <> "" -> lines <> [] ->
  commandHandler_Handle h (Place id lines)
  = (mkHandler (mkRepository (mkEventStore
       (events (Store (Repository h)) ++ [Placed id]))), []).
Proof.
  intros Hid Hlines.
  rewrite Handle_Place_run, (Place_ok (Order.mk id 0%Z []) lines Hid Hlines).
  cbn [fst snd]. now rewrite Save_in_memory.
Qed.

(** Replaying one more event of the package on a loaded order. *)
Lemma apply_after_history (evs : list Event) id :
  apply (loadFromHistory evs) (Placed id) false
  = Order.mk id StatusPlaced [] /\
  apply (loadFromHistory evs) (Activated id) false
  = Order.mk id StatusActivated [].
Proof.
  pose proof (loadFromHistory_uncommitted evs) as Hunc.
  unfold apply. simpl. now rewrite Hunc.
Qed.

(** When the loaded order is not in the status [StatusPlaced], handling
    [Activate] changes nothing. *)
Lemma Handle_Activate_settled h id :
  Order.Status (snd (defaultRepository_Load (Repository h) id))
  <> StatusPlaced ->
  commandHandler_Handle h (Activate id) = (h, []).
Proof.
  intros Hs.
  rewrite Handle_Activate_run, (Activate_unless_Placed _ Hs).
  rewrite Save_by_cases, Load_uncommitted. now destruct h.
Qed.

(** Handling [Activate] for an identifier the log knows. *)
Lemma Handle_Activate_known_run h id :
  collect id (events (Store (Repository h))) <> [] ->
  snd (commandHandler_Handle h (Activate id)) = [] /\
  events (Store (Repository (fst (commandHandler_Handle h (Activate id)))))
  = events (Store (Repository h))
    ++ (if (Order.Status
              (snd (defaultRepository_Load (Repository h) id))
            =? StatusPlaced)%Z
        then [Activated id] else []) /\
  snd (defaultRepository_Load
         (Repository (fst (commandHandler_Handle h (Activate id)))) id)
  = Order.mk id StatusActivated [].
Proof.
  intros Hne. rewrite Handle_Activate_run. cbn [fst snd Repository].
  split; [reflexivity|]. rewrite Save_in_memory. cbn [Store events].
  rewrite (Load_known _ id Hne). cbn [snd].
  set (o := loadFromHistory (collect id (events (Store (Repository h))))).
  assert (Hid : Order.ID o = id).
  { apply replay_ID; [apply collect_carries|exact Hne]. }
  assert (Hunc : Order.uncommitted o = []).
  { apply loadFromHistory_uncommitted. }
  assert (Hst : Order.Status o = StatusPlaced \/
                Order.Status o = StatusActivated).
  { apply replay_Status_cases. now left. }
  destruct Hst as [Hs|Hs].
  - rewrite (Activate_ok o Hs), Hs, Hid, Hunc.
    cbn [Order.uncommitted app]. rewrite Z.eqb_refl.
    split; [reflexivity|].
    rewrite (Load_after_snoc _ (Activated id) id eq_refl).
    apply apply_after_history.
  - rewrite (Activate_unless_Placed o), Hs, Hunc by (rewrite Hs; discriminate).
    change (StatusActivated =? StatusPlaced)%Z with false. cbv iota.
    rewrite !app_nil_r. split; [reflexivity|].
    replace (mkRepository (mkEventStore (events (Store (Repository h)))))
      with (Repository h) by (now destruct h as [[[log]]]).
    rewrite (Load_known _ id Hne). cbn [snd]. fold o.
    destruct o as [i s u]. cbn in Hid, Hunc, Hs. now subst.
Qed.

(** With an empty buffer to start from, an operation leaves at most one
    event in the buffer, and it is an event of the package. *)
Lemma perform_buffer o op :
  Order.uncommitted o = [] ->
  (length (Order.uncommitted (fst (perform o op))) <= 1)%nat /\
  Forall (fun e => ofPackage e = true)
    (Order.uncommitted (fst (perform o op))).
Proof.
  intros Hunc.
  destruct (perform_cases o op) as [->|(e & Hkind & _ & ->)]; cbn [fst].
  - rewrite Hunc. split; [simpl; lia|constructor].
  - rewrite apply_new_uncommitted, Hunc. split; [simpl; lia|].
    now repeat constructor.
Qed.
End Handling.

(** X10: over the in-memory store, whatever the log already holds, handling
    [Place] for a non-empty identifier with at least one line logs nothing
    and appends exactly the event [Placed] of that identifier to the log;
    the repository's [Load] of the identifier then returns an order with
    that identifier, the status [StatusPlaced] and no uncommitted events,
    also when the log had the order activated before. *)
Theorem Handle_Place_valid
  (h : commandHandler (defaultRepository eventStore))
  (id : string) (lines : list Line) :
  id <> "" -> lines <> [] ->
  commandHandler_Handle h (Place id lines)
  = (mkHandler (mkRepository (mkEventStore
       (events (Store (Repository h)) ++ [Placed id]))), []) /\
  snd (defaultRepository_Load
         (Repository (fst (commandHandler_Handle h (Place id lines)))) id)
  = Order.mk id StatusPlaced [].
Proof.
  intros Hid Hlines. rewrite (Handle_Place_ok h id lines Hid Hlines).
  split; [reflexivity|]. cbn [fst Repository].
  rewrite (Load_after_snoc _ (Placed id) id eq_refl).
  apply apply_after_history.
Qed.

Lemma Handle_Place_valid_witness :
  let h := NewCommandHandler
             (NewRepository
                (mkEventStore [Placed "ABC123"; Activated "ABC123"])) in
  "ABC123" <> "" /\ [mkLine] <> [] /\
  snd (defaultRepository_Load
         (Repository (fst (commandHandler_Handle h (Place "ABC123" [mkLine]))))
         "ABC123")
  = Order.mk "ABC123" StatusPlaced [].
Proof.
  split; [discriminate|]. split; [discriminate|].
  apply (Handle_Place_valid
           (NewCommandHandler
              (NewRepository
                 (mkEventStore [Placed "ABC123"; Activated "ABC123"])))
           "ABC123" [mkLine]); discriminate.
Defined.

(** X11: for every implementation of the store, handling [Place] with an
    empty identifier or with no lines leaves the handler and its store as
    they were, without a call to the store, and logs exactly one error:
    [errAlreadyPlaced] when the identifier is empty, [errEmptyOrderLine]
    otherwise. *)
Theorem Handle_Place_invalid
  (S : Type) (ES : EventStore.t S) (h : commandHandler (defaultRepository S))
  (id : string) (lines : list Line) :
  id = "" \/ lines = [] ->
  commandHandler_Handle h (Place id lines)
  = (h, [if id =? "" then errAlreadyPlaced else errEmptyOrderLine]).
Proof.
  intros Hbad. unfold commandHandler_Handle, Order_Place. cbn [Order.ID].
  destruct h as [r].
  destruct (String.eqb_spec id "") as [Hid|Hid]; [reflexivity|].
  destruct Hbad as [Hbad|Hbad]; [contradiction|].
  rewrite Hbad. reflexivity.
Qed.

Lemma Handle_Place_invalid_witness :
  let h := NewCommandHandler (NewRepository (mkEventStore [Placed "A"])) in
  ("X" = "" \/ @nil Line = []) /\
  commandHandler_Handle h (Place "X" []) = (h, [errEmptyOrderLine]).
Proof.
  split; [now right|].
  apply (Handle_Place_invalid eventStore eventStore_EventStore
           (NewCommandHandler (NewRepository (mkEventStore [Placed "A"])))
           "X" []).
  now right.
Defined.

(** X12: over the in-memory store, when the log holds at least one event
    for the identifier, handling [Activate] for it logs nothing, appends the
    event [Activated] of that identifier when the loaded order is in the
    status [StatusPlaced] and nothing otherwise, and the repository's [Load]
    of the identifier then returns an order with that identifier, the
    status [StatusActivated] and no uncommitted events. *)
Theorem Handle_Activate_known
  (h : commandHandler (defaultRepository eventStore))
  (id : string) (e : Event) :
  In e (events (Store (Repository h))) -> Event_ID e = id ->
  snd (commandHandler_Handle h (Activate id)) = [] /\
  events (Store (Repository (fst (commandHandler_Handle h (Activate id)))))
  = events (Store (Repository h))
    ++ (if (Order.Status
              (snd (defaultRepository_Load (Repository h) id))
            =? StatusPlaced)%Z
        then [Activated id] else []) /\
  snd (defaultRepository_Load
         (Repository (fst (commandHandler_Handle h (Activate id)))) id)
  = Order.mk id StatusActivated [].
Proof.
  intros Hin He. apply Handle_Activate_known_run.
  now apply (collect_some id _ e).
Qed.

Lemma Handle_Activate_known_witness :
  let h := NewCommandHandler
             (NewRepository (mkEventStore [Placed "A"; Placed "B"])) in
  In (Placed "A") (events (Store (Repository h))) /\
  Event_ID (Placed "A") = "A" /\
  events (Store (Repository (fst (commandHandler_Handle h (Activate "A")))))
  = [Placed "A"; Placed "B"; Activated "A"].
Proof.
  split; [now left|]. split; [reflexivity|].
  apply (Handle_Activate_known
           (NewCommandHandler
              (NewRepository (mkEventStore [Placed "A"; Placed "B"])))
           "A" (Placed "A")); [now left|reflexivity].
Defined.

(** X13: over the in-memory store, when the log holds at least one event
    for the identifier, handling [Activate] for it a second time leaves the
    handler and the log as the first time left them. *)
Theorem Handle_Activate_twice
  (h : commandHandler (defaultRepository eventStore))
  (id : string) (e : Event) :
  In e (events (Store (Repository h))) -> Event_ID e = id ->
  commandHandler_Handle
    (fst (commandHandler_Handle h (Activate id))) (Activate id)
  = (fst (commandHandler_Handle h (Activate id)), []).
Proof.
  intros Hin He.
  pose proof (collect_some id _ e Hin He) as Hne.
  destruct (Handle_Activate_known_run h id Hne) as (_ & _ & Hloaded).
  apply Handle_Activate_settled. rewrite Hloaded. discriminate.
Qed.

Lemma Handle_Activate_twice_witness :
  let h := NewCommandHandler (NewRepository (mkEventStore [Placed "A"])) in
  In (Placed "A") (events (Store (Repository h))) /\
  Event_ID (Placed "A") = "A" /\
  commandHandler_Handle
    (fst (commandHandler_Handle h (Activate "A"))) (Activate "A")
  = (fst (commandHandler_Handle h (Activate "A")), []).
Proof.
  split; [now left|]. split; [reflexivity|].
  apply (Handle_Activate_twice
           (NewCommandHandler (NewRepository (mkEventStore [Placed "A"])))
           "A" (Placed "A")); [now left|reflexivity].
Defined.

(** X14: over the in-memory store, handling any command keeps the log it
    found as a prefix and appends at most one event to it, which is
    [Placed] or [Activated]; it passes at most one error to the logger. *)
Theorem Handle_appends
  (h : commandHandler (defaultRepository eventStore)) (c : Command) :
  (exists tail,
      events (Store (Repository (fst (commandHandler_Handle h c))))
      = events (Store (Repository h)) ++ tail /\
      (length tail <= 1)%nat /\
      Forall (fun e => ofPackage e = true) tail) /\
  (length (snd (commandHandler_Handle h c)) <= 1)%nat.
Proof.
  destruct c as [id lines|id|].
  - rewrite Handle_Place_run. cbn [fst snd Repository]. split.
    + rewrite Save_in_memory. cbn [Store events].
      exists (Order.uncommitted
                (fst (perform (Order.mk id 0%Z []) (DoPlace lines)))).
      split; [reflexivity|]. now apply perform_buffer.
    + destruct (snd (Order_Place (Order.mk id 0%Z []) lines)); simpl; lia.
  - rewrite Handle_Activate_run. cbn [fst snd Repository]. split.
    + rewrite Save_in_memory. cbn [Store events].
      exists (Order.uncommitted
                (fst (perform
                        (snd (defaultRepository_Load (Repository h) id))
                        DoActivate))).
      split; [reflexivity|]. apply perform_buffer, Load_uncommitted.
    + simpl; lia.
  - cbn [commandHandler_Handle fst snd]. split; [|simpl; lia].
    exists []. rewrite app_nil_r. repeat split; [simpl; lia|constructor].
Qed.

(** X15: over the in-memory store, whatever the log already holds, handling
    [Place] for a non-empty identifier with at least one line and then
    [Activate] for the same identifier appends the events [Placed] and
    [Activated] of that identifier, in this order, and the repository's
    [Load] of the identifier then returns an order with that identifier and
    the status [StatusActivated]. *)
Theorem Handle_Place_then_Activate
  (h : commandHandler (defaultRepository eventStore))
  (id : string) (lines : list Line) :
  id <> "" -> lines <> [] ->
  handleAll h [Place id lines; Activate id]
  = mkHandler (mkRepository (mkEventStore
      (events (Store (Repository h)) ++ [Placed id; Activated id]))) /\
  snd (defaultRepository_Load
         (Repository (handleAll h [Place id lines; Activate id])) id)
  = Order.mk id StatusActivated [].
Proof.
  intros Hid Hlines.
  assert (Hrun : handleAll h [Place id lines; Activate id]
                 = mkHandler (mkRepository (mkEventStore
                     (events (Store (Repository h))
                      ++ [Placed id; Activated id])))).
  { unfold handleAll. cbn [fold_left].
    rewrite (Handle_Place_ok h id lines Hid Hlines). cbn [fst].
    rewrite Handle_Activate_run. cbn [fst Repository].
    rewrite (Load_after_snoc _ (Placed id) id eq_refl).
    destruct (apply_after_history
                (collect id (events (Store (Repository h)))) id) as [-> _].
    rewrite Save_in_memory. cbn. now rewrite <- app_assoc. }
  rewrite Hrun. split; [reflexivity|]. cbn [Repository].
  change [Placed id; Activated id] with ([Placed id] ++ [Activated id]).
  rewrite app_assoc, (Load_after_snoc _ (Activated id) id eq_refl).
  apply apply_after_history.
Qed.

Lemma Handle_Place_then_Activate_witness :
  let h := NewCommandHandler (NewRepository NewEventStore) in
  "ABC123" <> "" /\ [mkLine] <> [] /\
  handleAll h [Place "ABC123" [mkLine]; Activate "ABC123"]
  = mkHandler (mkRepository (mkEventStore
      [Placed "ABC123"; Activated "ABC123"])).
Proof.
  split; [discriminate|]. split; [discriminate|].
  apply (Handle_Place_then_Activate
           (NewCommandHandler (NewRepository NewEventStore))
           "ABC123" [mkLine]); discriminate.
Defined.

(** ** The life cycle recorded in the log *)

Section Lifecycle.
Implicit Types (h : commandHandler (defaultRepository eventStore)).
Implicit Types (e : Event) (id : string) (log history : list Event).

Lemma lifecycle_snoc history e :
  lifecycle (history ++ [e]) = lifecycleStep (lifecycle history) e.
Proof. unfold lifecycle. now rewrite fold_left_app. Qed.

(** The phase of a history tells the status its replay ends in, and only
    the empty history is in the phase [Unplaced]. *)
Lemma lifecycle_Status history :
  match lifecycle history with
  | Unplaced => history = []
  | IsPlaced => Order.Status (loadFromHistory history) = StatusPlaced
  | IsActivated => Order.Status (loadFromHistory history) = StatusActivated
  | Broken => True
  end.
Proof.
  induction history as [|e history _] using rev_ind; [reflexivity|].
  rewrite lifecycle_snoc, loadFromHistory_replay, replay_snoc, apply_Status.
  destruct (lifecycle history), e; simpl; trivial.
Qed.

(** The log keeps the life cycle of [id] when it grows by nothing, by an
    event of another identifier, or by a [Placed] event. *)
Lemma lifecycle_kept id log tail :
  lifecycle (collect id log) <> Broken ->
  tail = [] \/
  (exists e, tail = [e] /\ Event_ID e <> id) \/
  (exists x, tail = [Placed x]) ->
  lifecycle (collect id (log ++ tail)) <> Broken.
Proof.
  intros Hlog [->|[(e & -> & He)|(x & ->)]].
  - now rewrite app_nil_r.
  - rewrite collect_snoc.
    destruct (String.eqb_spec (Event_ID e) id); [contradiction|].
    now rewrite app_nil_r.
  - rewrite collect_snoc. cbn [Event_ID].
    destruct (x =? id); [|now rewrite app_nil_r].
    rewrite lifecycle_snoc.
    destruct (lifecycle (collect id log)); simpl; congruence.
Qed.

(** One command keeps the life cycle of every non-empty identifier. *)
Lemma Handle_lifecycle h c id :
  id <> "" ->
  lifecycle (collect id (events (Store (Repository h)))) <> Broken ->
  lifecycle
    (collect id
       (events (Store (Repository (fst (commandHandler_Handle h c))))))
  <> Broken.
Proof.
  intros Hid Hlog. destruct c as [id0 lines|id0|]; [| |exact Hlog].
  - rewrite Handle_Place_run. cbn [fst Repository].
    rewrite Save_in_memory. cbn [Store events].
    apply lifecycle_kept; [exact Hlog|].
    destruct (Place_cases (Order.mk id0 0%Z []) lines) as [[err ->] | ->];
      cbn [fst]; [now left|].
    right. right. now exists id0.
  - rewrite Handle_Activate_run. cbn [fst Repository].
    rewrite Save_in_memory. cbn [Store events].
    set (o := snd (defaultRepository_Load (Repository h) id0)).
    assert (Hunc : Order.uncommitted o = []) by apply Load_uncommitted.
    destruct (Activate_cases o) as [[Hs ->]|[_ ->]];
      [|rewrite Hunc; apply lifecycle_kept; [exact Hlog|now left]].
    cbn [Order.uncommitted]. rewrite Hunc. cbn [app].
    destruct (String.eqb_spec (Order.ID o) id) as [Ho|Ho];
      [|apply lifecycle_kept; [exact Hlog|]; right; left;
        now exists (Activated (Order.ID o))].
    (* the loaded order carries [id]: the log knows [id0], and [id0] is [id] *)
    destruct (collect id0 (events (Store (Repository h)))) as [|e0 l]
      eqn:Hhist.
    + exfalso. apply Hid. rewrite <- Ho. unfold o.
      rewrite Load_in_memory, Load_collect, Hhist. reflexivity.
    + assert (Hne : collect id0 (events (Store (Repository h))) <> [])
        by (rewrite Hhist; discriminate).
      assert (Hload : o = loadFromHistory
                            (collect id0 (events (Store (Repository h))))).
      { unfold o. now rewrite (Load_known _ id0 Hne). }
      assert (Hid0 : id0 = id).
      { rewrite <- Ho, Hload, loadFromHistory_replay.
        symmetry. apply replay_ID; [apply collect_carries|exact Hne]. }
      subst id0. rewrite Ho, collect_snoc. cbn [Event_ID].
      rewrite String.eqb_refl, lifecycle_snoc.
      pose proof (lifecycle_Status
                    (collect id (events (Store (Repository h))))) as Hphase.
      rewrite <- Hload in Hphase.
      destruct (lifecycle (collect id (events (Store (Repository h)))));
        simpl; try discriminate.
      * now contradiction Hne.
      * rewrite Hs in Hphase. discriminate.
      * now contradiction Hlog.
Qed.

Lemma handleAll_lifecycle cmds id : forall h,
  id <> "" ->
  lifecycle (collect id (events (Store (Repository h)))) <> Broken ->
  lifecycle (collect id (events (Store (Repository (handleAll h cmds)))))
  <> Broken.
Proof.
  unfold handleAll.
  induction cmds as [|c cmds IH]; intros h Hid Hlog; cbn [fold_left];
    [exact Hlog|].
  apply IH; [exact Hid|]. now apply Handle_lifecycle.
Qed.
End Lifecycle.

(** X16: after any sequence of commands handled from an empty store, the
    events the log holds for any non-empty identifier form a sound life
    cycle: they are all [Placed] or [Activated] events, the first one is
    [Placed], and every [Activated] event directly follows a [Placed]
    event, so no order is activated before it is placed or twice in a
    row. *)
Theorem handled_lifecycle (cmds : list Command) (id : string) :
  id <> "" ->
  lifecycle
    (collect id
       (events (Store (Repository
          (handleAll (NewCommandHandler (NewRepository NewEventStore))
             cmds)))))
  <> Broken.
Proof.
  intros Hid. apply handleAll_lifecycle; [exact Hid|discriminate].
Qed.

Lemma handled_lifecycle_witness :
  let cmds := [Activate "A"; Place "A" [mkLine]; Activate "A"; Activate "A";
               Place "B" []; Place "A" [mkLine]] in
  "A" <> "" /\
  lifecycle
    (collect "A"
       (events (Store (Repository
          (handleAll (NewCommandHandler (NewRepository NewEventStore))
             cmds)))))
  <> Broken.
Proof.
  split; [discriminate|].
  apply (handled_lifecycle
           [Activate "A"; Place "A" [mkLine]; Activate "A"; Activate "A";
            Place "B" []; Place "A" [mkLine]] "A").
  discriminate.
Defined.

(** X17: for every non-empty sequence of operations that all succeed on a
    fresh order seeded with any identifier, replaying the uncommitted buffer
    of the resulting order from the zero value gives that order again, with
    the same identifier and status and an empty buffer: the state in memory
    is a function of the events generated. *)
Theorem replay_of_uncommitted
  (id : string) (ops : list Operation) (o : Order) :
  ops <> [] ->
  performAll (Order.mk id 0%Z []) ops = Some o ->
  loadFromHistory (Order.uncommitted o)
  = Order.mk (Order.ID o) (Order.Status o) [].
Proof.
  intros Hne Hrun.
  destruct (steady_performAll id ops _ o (steady_seed id) Hrun)
    as (Hid & _ & Hreplay).
  assert (Hgen : Order.uncommitted o <> []).
  { apply (performAll_generates ops (Order.mk id 0%Z []) o);
      [now left|exact Hne|exact Hrun]. }
  destruct (Hreplay Hgen Order.zero) as [Hi Hs].
  pose proof (loadFromHistory_uncommitted (Order.uncommitted o)) as Hu.
  rewrite loadFromHistory_replay in *.
  destruct (replay Order.zero (Order.uncommitted o)) as [i s u].
  cbn in Hi, Hs, Hu. now rewrite Hi, Hs, Hu, Hid.
Qed.

Lemma replay_of_uncommitted_witness :
  let ops := [DoActivate; DoPlace [mkLine]; DoActivate] in
  let o := Order.mk "A" StatusActivated
             [Activated "A"; Placed "A"; Activated "A"] in
  ops <> [] /\
  performAll (Order.mk "A" 0%Z []) ops = Some o /\
  loadFromHistory (Order.uncommitted o) = Order.mk "A" StatusActivated [].
Proof.
  split; [discriminate|]. split; [reflexivity|].
  apply (replay_of_uncommitted "A"
           [DoActivate; DoPlace [mkLine]; DoActivate]
           (Order.mk "A" StatusActivated
              [Activated "A"; Placed "A"; Activated "A"]));
    [discriminate|reflexivity].
Defined.

(** ** What a command leaves in the log *)

Section Appended.
Implicit Types (h : commandHandler (defaultRepository eventStore)).
Implicit Types (r : defaultRepository eventStore) (id : string).

(** Over the in-memory store a loaded order carries the identifier asked
    for, or the empty one after a miss. *)
Lemma Load_ID_cases r id :
  Order.ID (snd (defaultRepository_Load r id)) = id \/
  Order.ID (snd (defaultRepository_Load r id)) = "".
Proof.
  destruct (collect id (events (Store r))) as [|e l] eqn:Hhist.
  - right. now rewrite Load_in_memory, Load_collect, Hhist.
  - left.
    assert (Hne : collect id (events (Store r)) <> [])
      by (rewrite Hhist; discriminate).
    rewrite (Load_known r id Hne). cbn [snd].
    rewrite loadFromHistory_replay.
    apply replay_ID; [apply collect_carries|exact Hne].
Qed.

(** The events one command appends: at most one, of the package, and with
    the identifier the command names or the empty identifier. *)
Lemma Handle_tail h c :
  exists tail,
    events (Store (Repository (fst (commandHandler_Handle h c))))
    = events (Store (Repository h)) ++ tail /\
    (length tail <= 1)%nat /\
    Forall (fun e => ofPackage e = true /\
                     (Command_OrderID c = Some (Event_ID e) \/
                      Event_ID e = "")) tail.
Proof.
  destruct c as [id lines|id|].
  - rewrite Handle_Place_run. cbn [fst Repository].
    rewrite Save_in_memory. cbn [Store events].
    destruct (Place_cases (Order.mk id 0%Z []) lines) as [[err ->] | ->];
      cbn [fst].
    + exists []. repeat split; [simpl; lia|constructor].
    + exists [Placed id]. repeat split; [simpl; lia|].
      repeat constructor.
  - rewrite Handle_Activate_run. cbn [fst Repository].
    rewrite Save_in_memory. cbn [Store events].
    set (o := snd (defaultRepository_Load (Repository h) id)).
    assert (Hunc : Order.uncommitted o = []) by apply Load_uncommitted.
    destruct (Activate_cases o) as [[_ ->]|[_ ->]].
    + cbn [Order.uncommitted]. rewrite Hunc.
      exists [Activated (Order.ID o)]. repeat split; [simpl; lia|].
      constructor; [|constructor]. split; [reflexivity|]. cbn.
      destruct (Load_ID_cases (Repository h) id) as [Ho|Ho];
        fold o in Ho; rewrite Ho; auto.
    + rewrite Hunc. exists []. repeat split; [simpl; lia|constructor].
  - exists []. cbn [commandHandler_Handle fst]. rewrite app_nil_r.
    repeat split; [simpl; lia|constructor].
Qed.
End Appended.

(** X18: over the in-memory store, handling any sequence of commands keeps
    the log it started from as a prefix (nothing is rewritten, reordered or
    deleted) and appends at most one event per command, each of them
    [Placed] or [Activated]. *)
Theorem handleAll_appends
  (h : commandHandler (defaultRepository eventStore))
  (cmds : list Command) :
  exists tail,
    events (Store (Repository (handleAll h cmds)))
    = events (Store (Repository h)) ++ tail /\
    (length tail <= length cmds)%nat /\
    Forall (fun e => ofPackage e = true) tail.
Proof.
  revert h. unfold handleAll.
  induction cmds as [|c cmds IH]; intros h; cbn [fold_left].
  - exists []. rewrite app_nil_r. repeat split; [simpl; lia|constructor].
  - destruct (Handle_tail h c) as (t1 & Hlog1 & Hlen1 & Hkind1).
    destruct (IH (fst (commandHandler_Handle h c)))
      as (t2 & Hlog2 & Hlen2 & Hkind2).
    exists (t1 ++ t2). rewrite Hlog2, Hlog1, <- app_assoc.
    repeat split.
    + rewrite length_app. simpl. lia.
    + apply Forall_app. split; [|exact Hkind2].
      eapply Forall_impl; [|exact Hkind1]. now intros e [He _].
Qed.

(** X19: over the in-memory store, handling a command does not change what
    the store's [Load] returns for any non-empty identifier other than the
    one the command names. *)
Theorem Handle_other_identifier
  (h : commandHandler (defaultRepository eventStore))
  (c : Command) (id : string) :
  id <> "" -> Command_OrderID c <> Some id ->
  eventStore_Load (Store (Repository (fst (commandHandler_Handle h c)))) id
  = eventStore_Load (Store (Repository h)) id.
Proof.
  intros Hid Hother.
  destruct (Handle_tail h c) as (tail & Hlog & _ & Hkind).
  rewrite !Load_collect, Hlog, collect_app.
  rewrite (collect_elsewhere id tail); [now rewrite app_nil_r|].
  eapply Forall_impl; [|exact Hkind].
  intros e [_ [He|He]] Heq.
  - apply Hother. now rewrite He, Heq.
  - apply Hid. now rewrite <- Heq.
Qed.

Lemma Handle_other_identifier_witness :
  let h := NewCommandHandler
             (NewRepository (mkEventStore [Placed "A"; Placed "B"])) in
  "A" <> "" /\ Command_OrderID (Activate "B") <> Some "A" /\
  eventStore_Load
    (Store (Repository (fst (commandHandler_Handle h (Activate "B"))))) "A"
  = ([Placed "A"], None).
Proof.
  split; [discriminate|]. split; [discriminate|].
  rewrite (Handle_other_identifier
             (NewCommandHandler
                (NewRepository (mkEventStore [Placed "A"; Placed "B"])))
             (Activate "B") "A"); [reflexivity|discriminate|discriminate].
Defined.
